(** * Preferences.cpp: the cascading preference store of the session

    A shallow embedding of [rstudio::session::prefs::Preferences]
    ([allLayers], [readLayers], [initialize], [writeLayer]) and the
    properties of its layer stack.

    - [size_t] is a 64-bit unsigned integer: a [Z] in [0, 2^64), with the
      wrap-around of [--i] written out ([wrap]). The width matters only in
      that [SIZE_MAX] is no index of a vector.
    - [layers_] is a [std::vector] of pointers to distinct layer objects: a
      [list] of layer states; [layers_[i]] is defined for
      [i < layers_.size()] only, and an access outside that range is
      undefined behaviour, which the model reports as the outcome
      [OutOfRange].
    - [json::Object] is a mapping from names to values: a
      [gmap string Value], whose members a loop visits in the order of
      [map_to_list]. [json::Array] is a [list].
    - The values ([json::Value]) are a parameter, compared by [==] as by
      equality.
    - The layer classes are behind an interface ([PrefLayer]); every call
      made on a layer and every [LOG_ERROR] is recorded in a trace. *)

From Stdlib Require Import ZArith Lia.
From stdpp Require Import base option list strings gmap.

Local Open Scope Z_scope.

Module Prefs.

(** ** Errors ([core::Error]) *)

Inductive Error : Type :=
| Success
| systemError (code : Z).

(** [boost::system::errc::invalid_argument] is [EINVAL]. *)
Definition invalid_argument : Z := 22.

(** [if (error)]: the conversion of an [Error] to [bool]. *)
Definition isError (e : Error) : bool :=
  match e with
  | Success => false
  | systemError _ => true
  end.

#[global] Instance Error_eq_dec : EqDecision Error.
Proof. solve_decision. Defined.

(** ** [size_t] *)

Definition SIZE_MAX : Z := 2 ^ 64 - 1.

Definition wrap (z : Z) : Z := z mod 2 ^ 64.

(** ** The layer interface

    The five operations the aggregator calls on a layer. The mutating ones
    return the layer's next state and their [Error]; [readValue] and
    [allPrefs] only observe the layer. *)

Class PrefLayer (Value L : Type) : Type := {
  readPrefs : L → L * Error;
  writePrefs : L → gmap string Value → L * Error;
  validatePrefs : L → L * Error;
  readValue : L → string → option Value;
  allPrefs : L → gmap string Value
}.

(** ** Traces *)

Inductive Event (Value : Type) : Type :=
| CallCreateLayers
| CallAllPrefs (i : Z)
| CallReadPrefs (i : Z)
| CallValidatePrefs (i : Z)
| CallReadValue (i : Z) (name : string)
| CallWritePrefs (i : Z) (values : gmap string Value)
| LogError (e : Error).

Arguments CallCreateLayers {Value}.
Arguments CallAllPrefs {Value} i.
Arguments CallReadPrefs {Value} i.
Arguments CallValidatePrefs {Value} i.
Arguments CallReadValue {Value} i name.
Arguments CallWritePrefs {Value} i values.
Arguments LogError {Value} e.

(** The sets handed to [writePrefs], with the index of the layer written. *)
Fixpoint writes {Value} (tr : list (Event Value)) : list (Z * gmap string Value) :=
  match tr with
  | [] => []
  | CallWritePrefs i values :: tr' => (i, values) :: writes tr'
  | _ :: tr' => writes tr'
  end.

(** The indices at which [readValue] was called. *)
Fixpoint reads {Value} (tr : list (Event Value)) : list Z :=
  match tr with
  | [] => []
  | CallReadValue i _ :: tr' => i :: reads tr'
  | _ :: tr' => reads tr'
  end.

(** The errors passed to [LOG_ERROR]. *)
Fixpoint logged {Value} (tr : list (Event Value)) : list Error :=
  match tr with
  | [] => []
  | LogError e :: tr' => e :: logged tr'
  | _ :: tr' => logged tr'
  end.

(** The calls that can change a layer or the stack. *)
Definition mutating {Value} (e : Event Value) : bool :=
  match e with
  | CallCreateLayers | CallReadPrefs _ | CallValidatePrefs _
  | CallWritePrefs _ _ => true
  | CallAllPrefs _ | CallReadValue _ _ | LogError _ => false
  end.

(** ** Outcomes and the monad of the member functions *)

Inductive Outcome (Value L A : Type) : Type :=
| Returns (a : A) (ls : list L) (tr : list (Event Value))
| OutOfRange (i : Z) (ls : list L) (tr : list (Event Value))
| OutOfFuel.

Arguments Returns {Value L A} a ls tr.
Arguments OutOfRange {Value L A} i ls tr.
Arguments OutOfFuel {Value L A}.

Definition traceOf {Value L A} (o : Outcome Value L A) : list (Event Value) :=
  match o with
  | Returns _ _ tr | OutOfRange _ _ tr => tr
  | OutOfFuel => []
  end.

(** The call came back to its caller. *)
Definition returned {Value L A} (o : Outcome Value L A) : bool :=
  match o with
  | Returns _ _ _ => true
  | OutOfRange _ _ _ | OutOfFuel => false
  end.

(** [prefix tr o]: the outcome [o] of a continuation, after the events [tr]. *)
Definition prefix {Value L A} (tr : list (Event Value))
    (o : Outcome Value L A) : Outcome Value L A :=
  match o with
  | Returns a ls tr' => Returns a ls (tr ++ tr')
  | OutOfRange i ls tr' => OutOfRange i ls (tr ++ tr')
  | OutOfFuel => OutOfFuel
  end.

Section Preferences.
Context {Value : Type} `{EqDecision Value}.
Context {L : Type} `{PrefLayer Value L}.

(** [Preferences::createLayers] is pure virtual: it fills [layers_] and
    reports an [Error]. *)
Variable createLayers : list L → list L * Error.

Definition M (A : Type) : Type := list L → Outcome Value L A.

Definition ret {A} (a : A) : M A := λ ls, Returns a ls [].

Definition bind {A B} (m : M A) (f : A → M B) : M B :=
  λ ls, match m ls with
        | Returns a ls' tr => prefix tr (f a ls')
        | OutOfRange i ls' tr => OutOfRange i ls' tr
        | OutOfFuel => OutOfFuel
        end.

Notation "x <~ m ;; f" := (bind m (λ x, f))
  (at level 63, m at next level, right associativity).
Notation "m ;;; f" := (bind m (λ _, f))
  (at level 63, right associativity).

Definition emit (e : Event Value) : M unit := λ ls, Returns () ls [e].

(** [layers_.size()] *)
Definition size : M Z := λ ls, Returns (Z.of_nat (length ls)) ls [].

(** [layers_[i]] *)
Definition vector_at (ls : list L) (i : Z) : option L :=
  if bool_decide (0 ≤ i < Z.of_nat (length ls)) then ls !! Z.to_nat i
  else None.

Definition layerAt (i : Z) : M L :=
  λ ls, match vector_at ls i with
        | Some l => Returns l ls []
        | None => OutOfRange i ls []
        end.

(** The layer object [layers_[i]] points to takes a new state. *)
Definition setLayer (i : Z) (l : L) : M unit :=
  λ ls, Returns () (<[Z.to_nat i := l]> ls) [].

(** A mutating call [layers_[i]->op()]. *)
Definition callOn (ev : Event Value) (op : L → L * Error) (i : Z) : M Error :=
  l <~ layerAt i ;;
  emit ev ;;;
  setLayer i (op l).1 ;;;
  ret (op l).2.

Definition call_readPrefs (i : Z) : M Error :=
  callOn (CallReadPrefs i) readPrefs i.

Definition call_validatePrefs (i : Z) : M Error :=
  callOn (CallValidatePrefs i) validatePrefs i.

Definition call_writePrefs (i : Z) (values : gmap string Value) : M Error :=
  callOn (CallWritePrefs i values) (λ l, writePrefs l values) i.

Definition call_readValue (i : Z) (name : string) : M (option Value) :=
  l <~ layerAt i ;;
  emit (CallReadValue i name) ;;;
  ret (readValue l name).

Definition call_allPrefs (i : Z) : M (gmap string Value) :=
  l <~ layerAt i ;;
  emit (CallAllPrefs i) ;;;
  ret (allPrefs l).

Definition call_createLayers : M Error :=
  λ ls, Returns (createLayers ls).2 (createLayers ls).1 [CallCreateLayers].

(** [for (auto layer: layers_) body]: the body runs on the positions
    [i, i + 1, ...] of the vector, [n] of them, and threads the local
    variables [acc]. *)
Fixpoint forLayers {A} (body : A → Z → M A) (n : nat) (i : Z) (acc : A) : M A :=
  match n with
  | O => ret acc
  | S n' => acc' <~ body acc i ;; forLayers body n' (i + 1) acc'
  end.

Definition forEachLayer {A} (body : A → Z → M A) (acc : A) : M A :=
  n <~ size ;; forLayers body (Z.to_nat n) 0 acc.

(** [for (const auto pref: prefs) body] *)
Fixpoint forMembers {A} (body : A → string * Value → M A)
    (members : list (string * Value)) (acc : A) : M A :=
  match members with
  | [] => ret acc
  | pref :: rest => acc' <~ body acc pref ;; forMembers body rest acc'
  end.

(** *** [Preferences::allLayers] *)
Definition allLayers : M (list (gmap string Value)) :=
  forEachLayer (λ layers i,
    doc <~ call_allPrefs i ;;
    ret (layers ++ [doc])) [].

(** *** [Preferences::readLayers] *)
Definition readLayers : M Error :=
  forEachLayer (λ (_ : Error) i,
    error <~ call_readPrefs i ;;
    (if isError error then emit (LogError error) else ret ()) ;;;
    ret error) Success ;;;
  ret Success.

(** *** [Preferences::initialize] *)
Definition initialize : M Error :=
  error <~ call_createLayers ;;
  if isError error then ret error else
  error <~ readLayers ;;
  if isError error then ret error else
  forEachLayer (λ (_ : Error) i,
    error <~ call_validatePrefs i ;;
    (if isError error then emit (LogError error) else ret ()) ;;;
    ret error) error ;;;
  ret Success.

(** *** [Preferences::writeLayer]

    The inner loop [for (size_t i = layer - 1; i >= 0; --i)], entered at
    the test of its condition with the counter [i]; it yields the flags
    [(found, differs)]. One unit of [fuel] is one test of the condition. *)
Fixpoint scanLower (fuel : nat) (name : string) (value : Value) (i : Z)
    : M (bool * bool) :=
  match fuel with
  | O => λ _, OutOfFuel
  | S fuel' =>
    if i >=? 0 then
      val <~ call_readValue i name ;;
      match val with
      | Some v => ret (true, negb (bool_decide (v = value)))
      | None => scanLower fuel' name value (wrap (i - 1))
      end
    else ret (false, false)
  end.

(** The body of the outer loop: one member of [prefs]. *)
Definition recordUnique (fuel : nat) (layer : Z) (unique : gmap string Value)
    (pref : string * Value) : M (gmap string Value) :=
  flags <~ scanLower fuel pref.1 pref.2 (wrap (layer - 1)) ;;
  if negb flags.1 || flags.2 then ret (<[pref.1 := pref.2]> unique)
  else ret unique.

Definition writeLayer (fuel : nat) (layer : Z) (prefs : gmap string Value)
    : M Error :=
  sz <~ size ;;
  if (layer >=? sz) || (layer <? 1) then
    ret (systemError invalid_argument)
  else
    unique <~ forMembers (recordUnique fuel layer) (map_to_list prefs) ∅ ;;
    result <~ call_writePrefs layer unique ;;
    if isError result then ret result else ret Success.

(** *** What the layers below a layer provide

    [nearestLower ls n name v]: scanning from [n - 1] downward, the first
    layer that defines [name] stores [v] for it. *)
Definition nearestLower (ls : list L) (n : nat) (name : string) (v : Value)
    : Prop :=
  ∃ (j : nat) (lj : L),
    (j < n)%nat ∧ ls !! j = Some lj ∧ readValue lj name = Some v ∧
    ∀ (k : nat) (lk : L),
      (j < k < n)%nat → ls !! k = Some lk → readValue lk name = None.

(** Some layer below [n] defines [name]. *)
Definition definedBelow (ls : list L) (n : nat) (name : string) : Prop :=
  ∃ (j : nat) (lj : L),
    (j < n)%nat ∧ ls !! j = Some lj ∧ is_Some (readValue lj name).

(** The same as a function: the value inherited from below layer [n]. *)
Fixpoint inherited (ls : list L) (n : nat) (name : string) : option Value :=
  match n with
  | O => None
  | S m =>
    match ls !! m ≫= (λ l, readValue l name) with
    | Some v => Some v
    | None => inherited ls m name
    end
  end.

(** The pairs of [prefs] that differ from what layer [n] would inherit. *)
Definition minimized (ls : list L) (n : nat) (prefs : gmap string Value)
    : gmap string Value :=
  filter (λ kv, inherited ls n kv.1 ≠ Some kv.2) prefs.

(** The set the outer loop collects from [members], starting from [acc],
    as long as every name met is defined below layer [n]. *)
Fixpoint uniqueOf (ls : list L) (n : nat) (members : list (string * Value))
    (acc : gmap string Value) : option (gmap string Value) :=
  match members with
  | [] => Some acc
  | pref :: rest =>
    match inherited ls n pref.1 with
    | Some v =>
      uniqueOf ls n rest
        (if decide (v = pref.2) then acc else <[pref.1 := pref.2]> acc)
    | None => None
    end
  end.

(** A trace that only calls [readValue], and only on layers below [n]. *)
Definition readsBelow (n : Z) (tr : list (Event Value)) : Prop :=
  Forall (λ e, ∃ i name, e = CallReadValue i name ∧ 0 ≤ i < n) tr.

(** The trace of a loop that calls [op] on every layer, from position [i]
    on, and logs the errors. *)
Fixpoint perLayer (ev : Z → Event Value) (op : L → L * Error) (i : Z)
    (ls : list L) : list (Event Value) :=
  match ls with
  | [] => []
  | l :: rest =>
    ev i :: (if isError (op l).2 then [LogError (op l).2] else [])
      ++ perLayer ev op (i + 1) rest
  end.

(** Modelled from the spec: what [writePrefs] does is in the layer
    classes, which are not part of Preferences.cpp. Section 4.4, step 5:
    a successful write "only adds/updates" the given set and removes
    nothing, as seen through [readValue]. *)
Definition writePrefsAddsOrUpdates : Prop :=
  ∀ (l l' : L) (values : gmap string Value),
    writePrefs l values = (l', Success) →
    ∀ name, readValue l' name =
            match values !! name with
            | Some v => Some v
            | None => readValue l name
            end.

End Preferences.

(** ** A layer kept in memory

    Modelled from the spec: the layer classes (the implementations of
    [PrefLayer]) are not part of Preferences.cpp. This one follows the
    contract of section 4.1: [readValue] and [allPrefs] show the layer's own
    content, [writePrefs] adds or updates the given pairs or fails as a
    whole, [readPrefs] loads the persisted content, [validatePrefs] changes
    nothing. [ioError] and [schemaError] are what the storage and the schema
    check of the layer answer. *)
Record MemLayer : Type := {
  content : gmap string string;
  persisted : gmap string string;
  ioError : Error;
  schemaError : Error
}.

#[global] Instance MemLayer_PrefLayer : PrefLayer string MemLayer := {
  readPrefs l :=
    if isError (ioError l) then (l, ioError l)
    else ({| content := persisted l; persisted := persisted l;
             ioError := ioError l; schemaError := schemaError l |}, Success);
  writePrefs l values :=
    if isError (ioError l) then (l, ioError l)
    else ({| content := values ∪ content l; persisted := values ∪ content l;
             ioError := ioError l; schemaError := schemaError l |}, Success);
  validatePrefs l := (l, schemaError l);
  readValue l name := content l !! name;
  allPrefs l := content l
}.

Definition memLayer (c : gmap string string) : MemLayer :=
  {| content := c; persisted := c; ioError := Success; schemaError := Success |}.

Definition brokenLayer (c : gmap string string) (e : Error) : MemLayer :=
  {| content := c; persisted := c; ioError := e; schemaError := Success |}.

(** The stack of the spec's scenario: base{theme: "light"}, user{}. *)
Definition themeStack : list MemLayer :=
  [memLayer {[ "theme" := "light" ]}; memLayer ∅].

Definition lightTheme : gmap string string := {[ "theme" := "light" ]}.
Definition darkTheme : gmap string string := {[ "theme" := "dark" ]}.
Definition monoFont : gmap string string := {[ "font" := "mono" ]}.

(** The same stack after the user layer took the dark theme. *)
Definition darkStack : list MemLayer :=
  [memLayer lightTheme; memLayer darkTheme].

(** The same stack with a user layer whose storage fails ([EIO]). *)
Definition failingStack : list MemLayer :=
  [memLayer lightTheme; brokenLayer ∅ (systemError 5)].

(** base{theme: "light"}, user{}, project{}. *)
Definition projectStack : list MemLayer :=
  [memLayer lightTheme; memLayer ∅; memLayer ∅].

(** Two proposed pairs: {theme: "dark", font: "mono"}. *)
Definition themeAndFont : gmap string string :=
  {[ "theme" := "dark"; "font" := "mono" ]}.

(** base{theme: "light", font: "mono"}, user{}. *)
Definition fontStack : list MemLayer :=
  [memLayer {[ "theme" := "light"; "font" := "mono" ]}; memLayer ∅].

(** ** Properties *)

Section Properties.
Context {Value : Type} `{EqDecision Value}.
Context {L : Type} `{PrefLayer Value L}.

Implicit Types (ls : list L) (tr : list (Event Value)).
Implicit Types (prefs : gmap string Value) (name : string).

(** *** The monad *)

Lemma prefix_nil {A} (o : Outcome Value L A) : prefix [] o = o.
Proof. by destruct o. Qed.

Lemma bind_Returns {A B} (m : M A) (f : A → M B) ls a ls' tr :
  m ls = Returns a ls' tr → bind m f ls = prefix tr (f a ls').
Proof. unfold bind. by intros ->. Qed.

Lemma bind_OutOfRange {A B} (m : M A) (f : A → M B) ls i ls' tr :
  m ls = OutOfRange i ls' tr → bind m f ls = OutOfRange i ls' tr.
Proof. unfold bind. by intros ->. Qed.

Lemma isError_result (e : Error) : (if isError e then e else Success) = e.
Proof. by destruct e. Qed.

(** *** Traces *)

Lemma writes_app tr1 tr2 : writes (tr1 ++ tr2) = writes tr1 ++ writes tr2.
Proof.
  induction tr1 as [|e tr1 IH]; [done|].
  destruct e; simpl; by rewrite ?IH.
Qed.

Lemma readsBelow_nil n : readsBelow (Value := Value) n [].
Proof. constructor. Qed.

Lemma readsBelow_app n tr1 tr2 :
  readsBelow n tr1 → readsBelow n tr2 → readsBelow n (tr1 ++ tr2).
Proof. unfold readsBelow. intros. by apply Forall_app. Qed.

Lemma readsBelow_mono n n' tr : n ≤ n' → readsBelow n tr → readsBelow n' tr.
Proof.
  intros Hn Htr. unfold readsBelow. eapply Forall_impl; [exact Htr|].
  intros e (i & name & -> & Hi). exists i, name. split; [done|lia].
Qed.

Lemma readsBelow_writes n tr : readsBelow n tr → writes tr = [].
Proof.
  induction 1 as [|e tr (i & name & -> & _) _ IH]; [done|]. exact IH.
Qed.

Lemma readsBelow_mutating n tr : readsBelow n tr → List.filter mutating tr = [].
Proof.
  induction 1 as [|e tr (i & name & -> & _) _ IH]; [done|]. exact IH.
Qed.

Lemma readsBelow_reads n tr : readsBelow n tr → Forall (λ i, 0 ≤ i < n) (reads tr).
Proof.
  induction 1 as [|e tr (i & name & -> & Hi) _ IH]; [constructor|].
  simpl. by constructor.
Qed.

(** *** [size_t] and [layers_[i]] *)

Lemma wrap_below_zero : wrap (0 - 1) = SIZE_MAX.
Proof. reflexivity. Qed.

Lemma wrap_small z : 0 ≤ z ≤ SIZE_MAX → wrap z = z.
Proof. unfold wrap, SIZE_MAX. intros. apply Z.mod_small. lia. Qed.

Lemma vector_at_lookup ls (n : nat) l :
  ls !! n = Some l → vector_at ls (Z.of_nat n) = Some l.
Proof.
  intros Hl. unfold vector_at.
  rewrite bool_decide_eq_true_2, Nat2Z.id; [done|].
  apply lookup_lt_Some in Hl. lia.
Qed.

Lemma vector_at_SIZE_MAX ls :
  Z.of_nat (length ls) ≤ SIZE_MAX → vector_at ls SIZE_MAX = None.
Proof.
  intros Hs. unfold vector_at. rewrite bool_decide_eq_false_2; [done|lia].
Qed.

Lemma call_readValue_at ls (n : nat) l name :
  ls !! n = Some l →
  call_readValue (Z.of_nat n) name ls
  = Returns (readValue l name) ls [CallReadValue (Z.of_nat n) name].
Proof.
  intros Hl. unfold call_readValue, bind, layerAt.
  by rewrite (vector_at_lookup _ _ _ Hl).
Qed.

Lemma call_readValue_SIZE_MAX ls name :
  Z.of_nat (length ls) ≤ SIZE_MAX →
  call_readValue SIZE_MAX name ls = OutOfRange SIZE_MAX ls [].
Proof.
  intros Hs. unfold call_readValue, bind, layerAt.
  by rewrite (vector_at_SIZE_MAX _ Hs).
Qed.

(** *** The values inherited from below *)

Lemma inherited_nearestLower ls n name v :
  inherited ls n name = Some v ↔ nearestLower ls n name v.
Proof.
  induction n as [|m IH]; simpl.
  - split; [done|]. intros (j & _ & Hj & _). lia.
  - destruct (ls !! m) as [l|] eqn:Hm; simpl.
    + destruct (readValue l name) as [w|] eqn:Hr.
      * split.
        -- intros [= ->]. exists m, l. repeat split; [lia|done..|].
           intros k lk Hk. lia.
        -- intros (j & lj & Hj & Hlj & Hrj & Hbetween).
           destruct (decide (j = m)) as [->|Hne]; [congruence|].
           assert (readValue l name = None) by (apply (Hbetween m); [lia|done]).
           congruence.
      * rewrite IH. split.
        -- intros (j & lj & Hj & Hlj & Hrj & Hbetween).
           exists j, lj. repeat split; [lia|done..|].
           intros k lk Hk Hlk.
           destruct (decide (k = m)) as [->|Hne]; [congruence|].
           apply (Hbetween k); [lia|done].
        -- intros (j & lj & Hj & Hlj & Hrj & Hbetween).
           destruct (decide (j = m)) as [->|Hne]; [congruence|].
           exists j, lj. repeat split; [lia|done..|].
           intros k lk Hk. apply Hbetween. lia.
    + rewrite IH. split.
      * intros (j & lj & Hj & Hlj & Hrj & Hbetween).
        exists j, lj. repeat split; [lia|done..|].
        intros k lk Hk Hlk.
        destruct (decide (k = m)) as [->|Hne]; [congruence|].
        apply (Hbetween k); [lia|done].
      * intros (j & lj & Hj & Hlj & Hrj & Hbetween).
        destruct (decide (j = m)) as [->|Hne]; [congruence|].
        exists j, lj. repeat split; [lia|done..|].
        intros k lk Hk. apply Hbetween. lia.
Qed.

Lemma inherited_definedBelow ls n name :
  is_Some (inherited ls n name) ↔ definedBelow ls n name.
Proof.
  induction n as [|m IH]; simpl.
  - split; [by intros [? ?]|]. intros (j & _ & Hj & _). lia.
  - destruct (ls !! m) as [l|] eqn:Hm; simpl.
    + destruct (readValue l name) as [w|] eqn:Hr.
      * split; [|by eauto]. intros _. exists m, l.
        repeat split; [lia|done|]. rewrite Hr. by eauto.
      * rewrite IH. split.
        -- intros (j & lj & Hj & Hlj & Hrj). exists j, lj.
           repeat split; [lia|done..].
        -- intros (j & lj & Hj & Hlj & Hrj).
           destruct (decide (j = m)) as [->|Hne].
           ++ rewrite Hm in Hlj. injection Hlj as <-.
              rewrite Hr in Hrj. by destruct Hrj.
           ++ exists j, lj. repeat split; [lia|done..].
    + rewrite IH. split.
      * intros (j & lj & Hj & Hlj & Hrj). exists j, lj.
        repeat split; [lia|done..].
      * intros (j & lj & Hj & Hlj & Hrj).
        destruct (decide (j = m)) as [->|Hne]; [congruence|].
        exists j, lj. repeat split; [lia|done..].
Qed.

(** Only the layers below [n] count. *)
Lemma inherited_take ls1 ls2 n name :
  take n ls1 = take n ls2 → inherited ls1 n name = inherited ls2 n name.
Proof.
  intros Ht. assert (∀ m, (m ≤ n)%nat →
                          inherited ls1 m name = inherited ls2 m name) as Hm.
  { induction m as [|m IH]; intros Hle; [done|]. simpl.
    assert (ls1 !! m = ls2 !! m) as ->.
    { rewrite <- (lookup_take_lt ls1 n m), <- (lookup_take_lt ls2 n m) by lia.
      by rewrite Ht. }
    rewrite IH by lia. done. }
  by apply Hm.
Qed.

(** *** The descending scan

    Entered at [layer - 1] with more fuel than [layer], the scan stops at
    the nearest lower layer that defines the name; when none does, it goes
    on from index 0 to [SIZE_MAX] and reads [layers_] out of range. *)
Lemma scanLower_spec fuel name value ls (n : nat) :
  (n ≤ length ls)%nat → Z.of_nat (length ls) ≤ SIZE_MAX → (n < fuel)%nat →
  ∃ tr, readsBelow (Z.of_nat n) tr ∧
    scanLower fuel name value (wrap (Z.of_nat n - 1)) ls =
      match inherited ls n name with
      | Some v => Returns (true, negb (bool_decide (v = value))) ls tr
      | None => OutOfRange SIZE_MAX ls tr
      end.
Proof.
  revert fuel. induction n as [|m IH]; intros fuel Hn Hs Hf.
  - destruct fuel as [|fuel]; [lia|].
    exists []. split; [apply readsBelow_nil|].
    change (wrap (Z.of_nat 0 - 1)) with SIZE_MAX. simpl.
    change (SIZE_MAX >=? 0) with true. cbv iota.
    by rewrite (bind_OutOfRange _ _ _ _ _ _ (call_readValue_SIZE_MAX ls name Hs)).
  - destruct fuel as [|fuel]; [lia|].
    replace (Z.of_nat (S m) - 1) with (Z.of_nat m) by lia.
    rewrite wrap_small by lia.
    destruct (lookup_lt_is_Some_2 ls m) as [l Hl]; [lia|].
    cbn [scanLower inherited].
    replace (Z.of_nat m >=? 0) with true by (symmetry; apply Z.geb_le; lia).
    rewrite (bind_Returns _ _ _ _ _ _ (call_readValue_at ls m l name Hl)).
    rewrite Hl. simpl mbind. simpl option_bind.
    destruct (readValue l name) as [v|] eqn:Hr.
    + exists [CallReadValue (Z.of_nat m) name]. split; [|done].
      constructor; [|constructor]. exists (Z.of_nat m), name. split; [done|lia].
    + destruct (IH fuel) as (tr & Htr & ->); [lia..|].
      exists (CallReadValue (Z.of_nat m) name :: tr). split.
      * constructor; [exists (Z.of_nat m), name; split; [done|lia]|].
        eapply readsBelow_mono; [|exact Htr]. lia.
      * by destruct (inherited ls m name).
Qed.

(** The defect of the scan: with no layer below [n] defining the name, it
    leaves the stack at [SIZE_MAX]. *)
Lemma scanLower_undefined fuel name value ls (n : nat) :
  (n ≤ length ls)%nat → Z.of_nat (length ls) ≤ SIZE_MAX → (n < fuel)%nat →
  ¬ definedBelow ls n name →
  ∃ tr, readsBelow (Z.of_nat n) tr ∧
    scanLower fuel name value (wrap (Z.of_nat n - 1)) ls
    = OutOfRange SIZE_MAX ls tr.
Proof.
  intros Hn Hs Hf Hundef.
  destruct (scanLower_spec fuel name value ls n Hn Hs Hf) as (tr & Htr & Hscan).
  exists tr. split; [done|]. rewrite Hscan.
  destruct (inherited ls n name) as [v|] eqn:Hv; [|done].
  destruct Hundef. apply inherited_definedBelow. rewrite Hv. by eauto.
Qed.

(** *** The outer loop *)

Lemma recordUnique_spec fuel (n : nat) unique pref ls :
  (n ≤ length ls)%nat → Z.of_nat (length ls) ≤ SIZE_MAX → (n < fuel)%nat →
  ∃ tr, readsBelow (Z.of_nat n) tr ∧
    recordUnique fuel (Z.of_nat n) unique pref ls =
      match inherited ls n pref.1 with
      | Some v =>
        Returns (if decide (v = pref.2) then unique
                 else <[pref.1 := pref.2]> unique) ls tr
      | None => OutOfRange SIZE_MAX ls tr
      end.
Proof.
  intros Hn Hs Hf.
  destruct (scanLower_spec fuel pref.1 pref.2 ls n Hn Hs Hf) as (tr & Htr & Hscan).
  exists tr. split; [done|]. unfold recordUnique, bind. rewrite Hscan.
  destruct (inherited ls n pref.1) as [v|]; [|done].
  simpl. unfold ret.
  destruct (decide (v = pref.2)) as [Heq|Hne].
  - rewrite bool_decide_eq_true_2 by done. simpl. by rewrite app_nil_r.
  - rewrite bool_decide_eq_false_2 by done. simpl. by rewrite app_nil_r.
Qed.

Lemma forMembers_spec fuel (n : nat) members acc ls :
  (n ≤ length ls)%nat → Z.of_nat (length ls) ≤ SIZE_MAX → (n < fuel)%nat →
  ∃ tr, readsBelow (Z.of_nat n) tr ∧
    forMembers (recordUnique fuel (Z.of_nat n)) members acc ls =
      match uniqueOf ls n members acc with
      | Some u => Returns u ls tr
      | None => OutOfRange SIZE_MAX ls tr
      end.
Proof.
  intros Hn Hs Hf. revert acc.
  induction members as [|pref rest IH]; intros acc.
  - exists []. split; [apply readsBelow_nil|done].
  - destruct (recordUnique_spec fuel n acc pref ls Hn Hs Hf) as (tr1 & Htr1 & Hrec).
    cbn [forMembers uniqueOf]. unfold bind at 1. rewrite Hrec.
    destruct (inherited ls n pref.1) as [v|]; [|by exists tr1].
    destruct (IH (if decide (v = pref.2) then acc else <[pref.1 := pref.2]> acc))
      as (tr2 & Htr2 & ->).
    exists (tr1 ++ tr2). split; [by apply readsBelow_app|].
    by destruct (uniqueOf ls n rest _).
Qed.

Lemma uniqueOf_is_Some ls n members acc :
  is_Some (uniqueOf ls n members acc)
  ↔ Forall (λ p, is_Some (inherited ls n p.1)) members.
Proof.
  revert acc. induction members as [|pref rest IH]; intros acc; simpl.
  - split; [constructor|by eauto].
  - rewrite Forall_cons. destruct (inherited ls n pref.1) as [v|].
    + rewrite IH. split; [by eauto|by intros [_ ?]].
    + split; [by intros [? ?]|]. by intros [[? ?] _].
Qed.

Lemma uniqueOf_other ls n members acc u name :
  name ∉ members.*1 → uniqueOf ls n members acc = Some u →
  u !! name = acc !! name.
Proof.
  revert acc. induction members as [|pref rest IH]; intros acc Hnot; simpl.
  - by intros [= ->].
  - apply not_elem_of_cons in Hnot as [Hne Hnot].
    destruct (inherited ls n pref.1) as [v|]; [|done].
    intros Hu. rewrite (IH _ Hnot Hu).
    destruct (decide (v = pref.2)); [done|]. by rewrite lookup_insert_ne.
Qed.

Lemma uniqueOf_member ls n members acc u name value :
  NoDup members.*1 → (name, value) ∈ members →
  uniqueOf ls n members acc = Some u →
  u !! name = if decide (inherited ls n name = Some value) then acc !! name
              else Some value.
Proof.
  revert acc. induction members as [|pref rest IH]; intros acc Hnd Hin; simpl.
  - by apply elem_of_nil in Hin.
  - rewrite fmap_cons in Hnd. apply NoDup_cons in Hnd as [Hfresh Hnd].
    apply elem_of_cons in Hin as [<-|Hin]; simpl in *.
    + destruct (inherited ls n name) as [v|]; [|done].
      intros Hu. rewrite (uniqueOf_other _ _ _ _ _ _ Hfresh Hu).
      destruct (decide (v = value)) as [->|Hne].
      * by rewrite decide_True.
      * rewrite decide_False by congruence. by rewrite lookup_insert_eq.
    + destruct (inherited ls n pref.1) as [v|]; [|done].
      intros Hu. rewrite (IH _ Hnd Hin Hu).
      assert (pref.1 ≠ name) as Hne.
      { intros <-. apply Hfresh. apply list_elem_of_fmap. by exists (pref.1, value). }
      destruct (decide (inherited ls n name = Some value)); [|done].
      destruct (decide (v = pref.2)); [done|]. by rewrite lookup_insert_ne.
Qed.

(** On the members of a [json::Object] the loop collects [minimized]. *)
Lemma uniqueOf_minimized ls n prefs u :
  uniqueOf ls n (map_to_list prefs) ∅ = Some u → u = minimized ls n prefs.
Proof.
  intros Hu. apply map_eq. intros name. unfold minimized.
  destruct (prefs !! name) as [value|] eqn:Hp.
  - rewrite (uniqueOf_member _ _ _ _ _ name value
               (NoDup_fst_map_to_list prefs)
               (proj2 (elem_of_map_to_list prefs name value) Hp) Hu).
    destruct (decide (inherited ls n name = Some value)) as [Heq|Hne].
    + rewrite lookup_empty. symmetry. apply map_lookup_filter_None.
      right. intros x Hx. simpl. congruence.
    + symmetry. by apply map_lookup_filter_Some.
  - rewrite (uniqueOf_other ls n (map_to_list prefs) ∅ u name); [|..|exact Hu].
    + rewrite lookup_empty. symmetry. apply map_lookup_filter_None. by left.
    + intros Hin. apply list_elem_of_fmap in Hin as ([k v] & -> & Hin).
      apply elem_of_map_to_list in Hin. simpl in Hp. congruence.
Qed.

Lemma uniqueOf_defined ls n prefs :
  is_Some (uniqueOf ls n (map_to_list prefs) ∅)
  ↔ ∀ name, is_Some (prefs !! name) → definedBelow ls n name.
Proof.
  rewrite uniqueOf_is_Some, Forall_forall. split.
  - intros Hall name [value Hp]. apply inherited_definedBelow.
    apply (Hall (name, value)). by apply elem_of_map_to_list.
  - intros Hall [name value] Hin. apply inherited_definedBelow, Hall.
    apply elem_of_map_to_list in Hin. by eauto.
Qed.

(** *** [writeLayer] on a valid index *)

Lemma callOn_at (ev : Event Value) (op : L → L * Error) ls (n : nat) l :
  ls !! n = Some l →
  callOn ev op (Z.of_nat n) ls
  = Returns (op l).2 (<[n := (op l).1]> ls) [ev].
Proof.
  intros Hl. unfold callOn, bind, layerAt, emit, setLayer, ret.
  rewrite (vector_at_lookup _ _ _ Hl). simpl. by rewrite Nat2Z.id.
Qed.

Lemma writeLayer_valid fuel (n : nat) prefs ls l :
  (1 ≤ n)%nat → ls !! n = Some l →
  Z.of_nat (length ls) ≤ SIZE_MAX → (n < fuel)%nat →
  ∃ tr, readsBelow (Z.of_nat n) tr ∧
    writeLayer fuel (Z.of_nat n) prefs ls =
      match uniqueOf ls n (map_to_list prefs) ∅ with
      | Some u =>
        Returns (writePrefs l u).2 (<[n := (writePrefs l u).1]> ls)
          (tr ++ [CallWritePrefs (Z.of_nat n) u])
      | None => OutOfRange SIZE_MAX ls tr
      end.
Proof.
  intros Hn Hl Hs Hf. pose proof (lookup_lt_Some _ _ _ Hl) as Hlt.
  destruct (forMembers_spec fuel n (map_to_list prefs) ∅ ls) as (tr & Htr & Hloop);
    [lia|done..|].
  exists tr. split; [done|].
  unfold writeLayer. unfold bind at 1. unfold size.
  rewrite Z.geb_leb.
  replace (Z.of_nat (length ls) <=? Z.of_nat n) with false
    by (symmetry; apply Z.leb_gt; lia).
  replace (Z.of_nat n <? 1) with false by (symmetry; apply Z.ltb_ge; lia).
  change (false || false) with false. cbv iota. rewrite prefix_nil.
  unfold bind at 1. rewrite Hloop.
  destruct (uniqueOf ls n (map_to_list prefs) ∅) as [u|]; [|done].
  unfold bind, call_writePrefs. rewrite (callOn_at _ _ _ _ _ Hl).
  simpl. destruct (writePrefs l u) as [l' e]. simpl.
  by destruct e.
Qed.

(** The two outcomes of [writeLayer] on a valid index: the write of
    [minimized] when every proposed name is defined below the layer, the
    out-of-range read at [SIZE_MAX] when one is not. *)
Lemma writeLayer_outcome fuel layer prefs ls l :
  1 ≤ layer → ls !! Z.to_nat layer = Some l →
  Z.of_nat (length ls) ≤ SIZE_MAX → layer < Z.of_nat fuel →
  ∃ tr, readsBelow layer tr ∧
    (((∀ name, is_Some (prefs !! name) → definedBelow ls (Z.to_nat layer) name) ∧
      writeLayer fuel layer prefs ls =
        Returns (writePrefs l (minimized ls (Z.to_nat layer) prefs)).2
          (<[Z.to_nat layer :=
               (writePrefs l (minimized ls (Z.to_nat layer) prefs)).1]> ls)
          (tr ++ [CallWritePrefs layer (minimized ls (Z.to_nat layer) prefs)]))
     ∨ ((∃ name, is_Some (prefs !! name) ∧ ¬ definedBelow ls (Z.to_nat layer) name) ∧
        writeLayer fuel layer prefs ls = OutOfRange SIZE_MAX ls tr)).
Proof.
  intros Hlayer Hl Hs Hf.
  destruct (writeLayer_valid fuel (Z.to_nat layer) prefs ls l) as (tr & Htr & Hw);
    [lia|done|done|lia|].
  rewrite Z2Nat.id in Htr, Hw by lia.
  exists tr. split; [done|].
  destruct (uniqueOf ls (Z.to_nat layer) (map_to_list prefs) ∅) as [u|] eqn:Hu.
  - left. rewrite <- (uniqueOf_minimized _ _ _ _ Hu). split; [|done].
    apply uniqueOf_defined. rewrite Hu. by eauto.
  - right. split; [|done].
    assert (¬ Forall (λ p : string * Value,
                        is_Some (inherited ls (Z.to_nat layer) p.1))
              (map_to_list prefs)) as Hnot.
    { rewrite <- uniqueOf_is_Some, Hu. by intros [? ?]. }
    apply not_Forall_Exists in Hnot; [|apply _].
    apply Exists_exists in Hnot as ([name value] & Hin & Hundef).
    exists name. apply elem_of_map_to_list in Hin. split; [by eauto|].
    by rewrite <- inherited_definedBelow.
Qed.

Lemma writeLayer_undefined_name fuel layer prefs ls name :
  1 ≤ layer < Z.of_nat (length ls) →
  Z.of_nat (length ls) ≤ SIZE_MAX → layer < Z.of_nat fuel →
  is_Some (prefs !! name) → ¬ definedBelow ls (Z.to_nat layer) name →
  ∃ tr, readsBelow layer tr ∧
    writeLayer fuel layer prefs ls = OutOfRange SIZE_MAX ls tr.
Proof.
  intros Hlayer Hs Hf Hp Hundef.
  destruct (lookup_lt_is_Some_2 ls (Z.to_nat layer)) as [l Hl]; [lia|].
  destruct (writeLayer_outcome fuel layer prefs ls l) as (tr & Htr & [[Hall _]|[_ Hw]]);
    [lia|done..| |].
  - destruct Hundef. by apply Hall.
  - by exists tr.
Qed.

Lemma writeLayer_returns fuel layer prefs ls l :
  1 ≤ layer → ls !! Z.to_nat layer = Some l →
  Z.of_nat (length ls) ≤ SIZE_MAX → layer < Z.of_nat fuel →
  (∀ name, is_Some (prefs !! name) → definedBelow ls (Z.to_nat layer) name) →
  ∃ tr, readsBelow layer tr ∧
    writeLayer fuel layer prefs ls =
      Returns (writePrefs l (minimized ls (Z.to_nat layer) prefs)).2
        (<[Z.to_nat layer :=
             (writePrefs l (minimized ls (Z.to_nat layer) prefs)).1]> ls)
        (tr ++ [CallWritePrefs layer (minimized ls (Z.to_nat layer) prefs)]).
Proof.
  intros Hlayer Hl Hs Hf Hall.
  destruct (writeLayer_outcome fuel layer prefs ls l Hlayer Hl Hs Hf)
    as (tr & Htr & [[_ Hw]|[(name & Hp & Hundef) _]]).
  - by exists tr.
  - destruct Hundef. by apply Hall.
Qed.

(** A call that returns has made the one write of [minimized]. *)
Lemma writeLayer_Returns_inv fuel layer prefs ls l r ls' tr :
  1 ≤ layer → ls !! Z.to_nat layer = Some l →
  Z.of_nat (length ls) ≤ SIZE_MAX → layer < Z.of_nat fuel →
  writeLayer fuel layer prefs ls = Returns r ls' tr →
  ∃ tr0, readsBelow layer tr0 ∧
    tr = tr0 ++ [CallWritePrefs layer (minimized ls (Z.to_nat layer) prefs)] ∧
    r = (writePrefs l (minimized ls (Z.to_nat layer) prefs)).2 ∧
    ls' = <[Z.to_nat layer :=
              (writePrefs l (minimized ls (Z.to_nat layer) prefs)).1]> ls.
Proof.
  intros Hlayer Hl Hs Hf Hret.
  destruct (writeLayer_outcome fuel layer prefs ls l Hlayer Hl Hs Hf)
    as (tr0 & Htr0 & [[_ Hw]|[_ Hw]]); rewrite Hw in Hret; [|done].
  injection Hret as <- <- <-. by exists tr0.
Qed.

Lemma minimized_lookup ls n prefs name value v :
  prefs !! name = Some value → inherited ls n name = Some v →
  (minimized ls n prefs !! name = Some value ↔ v ≠ value) ∧
  (v = value → minimized ls n prefs !! name = None).
Proof.
  intros Hp Hv. unfold minimized. split; [split|].
  - intros Hm Heq. apply map_lookup_filter_Some in Hm as [_ Hm].
    simpl in Hm. congruence.
  - intros Hne. apply map_lookup_filter_Some. split; [done|].
    simpl. congruence.
  - intros ->. apply map_lookup_filter_None. right.
    intros x Hx. simpl. congruence.
Qed.

Lemma writes_scan_then_write n tr i (u : gmap string Value) :
  readsBelow n tr → writes (tr ++ [CallWritePrefs i u]) = [(i, u)].
Proof. intros Htr. by rewrite writes_app, (readsBelow_writes _ _ Htr). Qed.

Lemma mutating_scan_then_write n tr i (u : gmap string Value) :
  readsBelow n tr →
  List.filter mutating (tr ++ [CallWritePrefs i u]) = [CallWritePrefs i u].
Proof.
  intros Htr. by rewrite List.filter_app, (readsBelow_mutating _ _ Htr).
Qed.

(** *** The loops over all layers *)

Lemma logged_app tr1 tr2 : logged (tr1 ++ tr2) = logged tr1 ++ logged tr2.
Proof.
  induction tr1 as [|e tr1 IH]; [done|].
  destruct e; simpl; by rewrite ?IH.
Qed.

Lemma perLayer_mutating (ev : Z → Event Value) op i ls :
  (∀ k, mutating (ev k) = true) →
  List.filter mutating (perLayer ev op i ls)
  = (λ k : nat, ev (i + Z.of_nat k)) <$> seq 0 (length ls).
Proof.
  intros Hev. revert i. induction ls as [|l rest IH]; intros i; [done|].
  cbn [perLayer length seq fmap list_fmap List.filter]. rewrite Hev.
  rewrite Z.add_0_r. f_equal.
  rewrite List.filter_app, IH, <- fmap_S_seq, <- list_fmap_compose.
  destruct (isError (op l).2); simpl;
    apply list_fmap_ext; intros _ k _; simpl; f_equal; lia.
Qed.

Lemma perLayer_logged (ev : Z → Event Value) op i ls :
  (∀ k, logged [ev k] = []) →
  logged (perLayer ev op i ls) = List.filter isError ((λ l, (op l).2) <$> ls).
Proof.
  intros Hev. revert i. induction ls as [|l rest IH]; intros i; [done|].
  cbn [perLayer fmap list_fmap List.filter].
  change (ev i :: ?t) with ([ev i] ++ t).
  rewrite !logged_app, Hev, IH.
  by destruct (isError (op l).2).
Qed.

(** The body shared by the two best-effort loops: call, log a failure, go on. *)
Lemma forLayers_callOn (ev : Z → Event Value) (op : L → L * Error) rest :
  ∀ done acc, ∃ a,
    forLayers
      (λ (_ : Error) (i : Z),
         bind (callOn (ev i) op i) (λ error,
           bind (if isError error then emit (LogError error) else ret ())
             (λ _, ret error)))
      (length rest) (Z.of_nat (length done)) acc (done ++ rest)
    = Returns a (done ++ ((λ l, (op l).1) <$> rest))
        (perLayer ev op (Z.of_nat (length done)) rest).
Proof.
  induction rest as [|l rest IH]; intros done acc.
  - by exists acc.
  - cbn [forLayers length perLayer fmap list_fmap].
    destruct (IH (done ++ [(op l).1]) (op l).2) as [a Ha]. exists a.
    rewrite length_app, Nat2Z.inj_add in Ha. simpl in Ha.
    rewrite <- !(assoc_L (++)) in Ha. simpl in Ha.
    unfold bind at 1. unfold bind at 1.
    rewrite (callOn_at _ _ _ _ l) by (by apply list_lookup_middle).
    rewrite insert_app_r_alt, Nat.sub_diag by done.
    change (Z.of_nat 1) with 1 in Ha.
    destruct (isError (op l).2); cbn [prefix bind emit ret app insert list_insert];
      by rewrite Ha.
Qed.

Lemma forEachLayer_callOn (ev : Z → Event Value) (op : L → L * Error) acc ls :
  ∃ a,
    forEachLayer
      (λ (_ : Error) (i : Z),
         bind (callOn (ev i) op i) (λ error,
           bind (if isError error then emit (LogError error) else ret ())
             (λ _, ret error))) acc ls
    = Returns a ((λ l, (op l).1) <$> ls) (perLayer ev op 0 ls).
Proof.
  destruct (forLayers_callOn ev op ls [] acc) as [a Ha]. exists a.
  unfold forEachLayer. unfold bind at 1. unfold size.
  rewrite Nat2Z.id, prefix_nil. exact Ha.
Qed.

Lemma readLayers_spec ls :
  readLayers ls
  = Returns Success ((λ l, (readPrefs l).1) <$> ls)
      (perLayer CallReadPrefs readPrefs 0 ls).
Proof.
  destruct (forEachLayer_callOn CallReadPrefs readPrefs Success ls) as [a Ha].
  unfold readLayers, call_readPrefs. unfold bind at 1. rewrite Ha.
  simpl. by rewrite app_nil_r.
Qed.

Lemma call_allPrefs_at ls (n : nat) l :
  ls !! n = Some l →
  call_allPrefs (Z.of_nat n) ls
  = Returns (allPrefs l) ls [CallAllPrefs (Z.of_nat n)].
Proof.
  intros Hl. unfold call_allPrefs, bind, layerAt.
  by rewrite (vector_at_lookup _ _ _ Hl).
Qed.

Lemma forLayers_allPrefs rest :
  ∀ done (docs : list (gmap string Value)),
    forLayers (λ layers i, bind (call_allPrefs i) (λ doc, ret (layers ++ [doc])))
      (length rest) (Z.of_nat (length done)) docs (done ++ rest)
    = Returns (docs ++ (allPrefs <$> rest)) (done ++ rest)
        ((λ k : nat, CallAllPrefs (Z.of_nat (length done) + Z.of_nat k))
           <$> seq 0 (length rest)).
Proof.
  induction rest as [|l rest IH]; intros done docs.
  - simpl. unfold ret. by rewrite !app_nil_r.
  - cbn [forLayers length seq fmap list_fmap].
    pose proof (IH (done ++ [l]) (docs ++ [allPrefs l])) as Ha.
    rewrite length_app, Nat2Z.inj_add in Ha. simpl in Ha.
    rewrite <- !(assoc_L (++)) in Ha. simpl in Ha.
    change (Z.of_nat 1) with 1 in Ha.
    unfold bind at 1. unfold bind at 1.
    rewrite (call_allPrefs_at _ _ l) by (by apply list_lookup_middle).
    cbn [prefix ret app]. rewrite Ha. cbn [prefix app].
    change (Z.of_nat 0) with 0. rewrite Z.add_0_r. do 2 f_equal.
    rewrite <- fmap_S_seq, <- list_fmap_compose.
    apply list_fmap_ext. intros _ k _. simpl. f_equal. lia.
Qed.

Lemma allLayers_spec ls :
  allLayers ls
  = Returns (allPrefs <$> ls) ls
      ((λ k : nat, CallAllPrefs (Z.of_nat k)) <$> seq 0 (length ls)).
Proof.
  unfold allLayers, forEachLayer. unfold bind at 1. unfold size.
  rewrite Nat2Z.id, prefix_nil. exact (forLayers_allPrefs ls [] []).
Qed.

Lemma minimized_take ls1 ls2 n prefs :
  take n ls1 = take n ls2 → minimized ls1 n prefs = minimized ls2 n prefs.
Proof.
  intros Ht. unfold minimized. apply map_filter_ext. intros name value _.
  simpl. by rewrite (inherited_take ls1 ls2 n name Ht).
Qed.

Lemma minimized_all_inherited ls n prefs :
  (∀ name value, prefs !! name = Some value → nearestLower ls n name value) →
  minimized ls n prefs = ∅.
Proof.
  intros Hall. apply map_empty. intros name.
  apply map_lookup_filter_None. right. intros value Hp. simpl.
  intros Hne. apply Hne. by apply inherited_nearestLower, Hall.
Qed.

(** ** The claims on [writeLayer] *)

(** The pairs whose name is defined below the layer. Take a proposed pair
    (name, value), [v] being the value of the nearest lower layer that
    defines the name (the first one met from [layer - 1] downward). The
    pass of the outer loop for this pair reads layers below the target only
    and puts the pair into [unique] if and only if [v] differs from
    [value]. Whenever [writeLayer] reaches its call of [writePrefs], the
    set [u] it passes holds the pair if and only if [v] differs from
    [value], and has no entry for the name when they are equal. The call
    is reached when every proposed name is defined below the layer; with
    a proposed name that is not, it is never reached
    ([writeLayer_returns_iff]). *)
Theorem writeLayer_inherited_pair fuel layer prefs ls name value v :
  1 ≤ layer < Z.of_nat (length ls) →
  Z.of_nat (length ls) ≤ SIZE_MAX → layer < Z.of_nat fuel →
  prefs !! name = Some value →
  nearestLower ls (Z.to_nat layer) name v →
  (∀ unique, ∃ tr,
     readsBelow layer tr ∧
     recordUnique fuel layer unique (name, value) ls
     = Returns (if decide (v = value) then unique
                else <[name := value]> unique) ls tr) ∧
  (∀ r ls' tr,
     writeLayer fuel layer prefs ls = Returns r ls' tr →
     ∃ u, writes tr = [(layer, u)] ∧
          (u !! name = Some value ↔ v ≠ value) ∧
          (v = value → u !! name = None)) ∧
  ((∀ k, is_Some (prefs !! k) → definedBelow ls (Z.to_nat layer) k) →
   returned (writeLayer fuel layer prefs ls) = true).
Proof.
  intros Hlayer Hs Hf Hp Hv.
  destruct (lookup_lt_is_Some_2 ls (Z.to_nat layer)) as [l Hl]; [lia|].
  apply inherited_nearestLower in Hv. split; [|split].
  - intros unique.
    destruct (recordUnique_spec fuel (Z.to_nat layer) unique (name, value) ls)
      as (tr & Htr & Hrec); [lia|done|lia|].
    rewrite Z2Nat.id in Htr, Hrec by lia. simpl in Hrec. rewrite Hv in Hrec.
    by exists tr.
  - intros r ls' tr Hret.
    destruct (writeLayer_Returns_inv fuel layer prefs ls l r ls' tr)
      as (tr0 & Htr0 & -> & _ & _); [lia|done..|].
    exists (minimized ls (Z.to_nat layer) prefs). split.
    + by apply (writes_scan_then_write layer).
    + by apply minimized_lookup.
  - intros Hall.
    destruct (writeLayer_returns fuel layer prefs ls l) as (tr & _ & ->);
      [lia|done..].
Qed.

(** C4. With [layerIndex] equal to 0 or at least the size of the stack,
    [writeLayer] returns the [invalid_argument] error; it calls nothing on
    any layer (the trace is empty) and leaves the stack as it was. *)
Theorem writeLayer_invalid_index fuel layer prefs ls :
  layer = 0 ∨ Z.of_nat (length ls) ≤ layer →
  writeLayer fuel layer prefs ls
  = Returns (systemError invalid_argument) ls [].
Proof.
  intros Hbad. unfold writeLayer, bind, size. rewrite Z.geb_leb.
  destruct Hbad as [->|Hge].
  - change (0 <? 1) with true. by rewrite orb_true_r.
  - by rewrite (proj2 (Z.leb_le _ _) Hge).
Qed.

(** C6. On a valid layer index, when [writeLayer] calls [writePrefs] on
    the target layer with a set [u], it returns to its caller the very
    [Error] this call gave (so an error of the target layer is returned as
    it is, never swallowed). That call is the only mutating call
    [writeLayer] makes, and the stack after it differs from the stack
    before it at the target layer only, which took the state [writePrefs]
    gave it. *)
Theorem writeLayer_write_error fuel layer prefs ls l u :
  1 ≤ layer < Z.of_nat (length ls) → ls !! Z.to_nat layer = Some l →
  Z.of_nat (length ls) ≤ SIZE_MAX → layer < Z.of_nat fuel →
  (layer, u) ∈ writes (traceOf (writeLayer fuel layer prefs ls)) →
  ∃ tr,
    writeLayer fuel layer prefs ls
    = Returns (writePrefs l u).2
        (<[Z.to_nat layer := (writePrefs l u).1]> ls) tr ∧
    List.filter mutating tr = [CallWritePrefs layer u] ∧
    ∀ i : nat, i ≠ Z.to_nat layer →
               <[Z.to_nat layer := (writePrefs l u).1]> ls !! i = ls !! i.
Proof.
  intros Hlayer Hl Hs Hf Hcall.
  destruct (writeLayer_outcome fuel layer prefs ls l)
    as (tr0 & Htr0 & [[_ Hw]|[_ Hw]]); [lia|done..| |];
    rewrite Hw in Hcall |- *; simpl in Hcall.
  - rewrite (writes_scan_then_write layer tr0) in Hcall by done.
    apply list_elem_of_singleton in Hcall. injection Hcall as ->.
    eexists. split; [done|]. split.
    + by apply (mutating_scan_then_write layer).
    + intros i Hi. by apply list_lookup_insert_ne.
  - rewrite (readsBelow_writes _ _ Htr0) in Hcall.
    by apply elem_of_nil in Hcall.
Qed.

(** C8. Modelled from the spec for [writePrefs]
    ([writePrefsAddsOrUpdates]). On a valid layer index, when
    [writeLayer] is called twice in succession with the same arguments and
    both calls succeed, the second call passes the same set to
    [writePrefs] as the first, and after it every layer provides the same
    value for every name as after the first call; the layers other than
    the target are not changed at all. *)
Theorem writeLayer_idempotent fuel layer prefs ls ls1 ls2 tr1 tr2 :
  writePrefsAddsOrUpdates →
  1 ≤ layer < Z.of_nat (length ls) →
  Z.of_nat (length ls) ≤ SIZE_MAX → layer < Z.of_nat fuel →
  writeLayer fuel layer prefs ls = Returns Success ls1 tr1 →
  writeLayer fuel layer prefs ls1 = Returns Success ls2 tr2 →
  writes tr2 = writes tr1 ∧
  length ls2 = length ls1 ∧
  ∀ (i : nat) l1 l2,
    ls1 !! i = Some l1 → ls2 !! i = Some l2 →
    (∀ name, readValue l2 name = readValue l1 name) ∧
    (i ≠ Z.to_nat layer → l2 = l1).
Proof.
  intros Hc Hlayer Hs Hf Hfirst Hsecond.
  set (n := Z.to_nat layer) in *.
  destruct (lookup_lt_is_Some_2 ls n) as [l Hl]; [lia|].
  destruct (writeLayer_Returns_inv fuel layer prefs ls l Success ls1 tr1)
    as (tr0 & Htr0 & -> & He1 & ->); [lia|done..|].
  fold n in He1, Hsecond |- *.
  set (u := minimized ls n prefs) in *.
  destruct (writePrefs l u) as [l1 e1] eqn:Hw1. simpl in He1. subst e1.
  simpl in Hsecond |- *.
  assert (<[n:=l1]> ls !! n = Some l1) as Hl1
    by (apply list_lookup_insert_eq; lia).
  destruct (writeLayer_Returns_inv fuel layer prefs (<[n:=l1]> ls) l1
              Success ls2 tr2) as (tr0' & Htr0' & -> & He2 & ->);
    [lia|done|by rewrite length_insert|done|done|].
  fold n in He2 |- *.
  rewrite (minimized_take (<[n:=l1]> ls) ls n prefs) in He2 |- *
    by (by apply take_insert_ge).
  fold u in He2 |- *.
  destruct (writePrefs l1 u) as [l2 e2] eqn:Hw2. simpl in He2. subst e2.
  simpl. split; [|split].
  - by rewrite (writes_scan_then_write layer tr0),
               (writes_scan_then_write layer tr0').
  - by rewrite length_insert.
  - intros i la lb Ha Hb. destruct (decide (i = n)) as [->|Hne].
    + rewrite list_lookup_insert_eq in Hb by (rewrite length_insert; lia).
      rewrite Hl1 in Ha. injection Ha as <-. injection Hb as <-.
      split; [|done]. intros name.
      rewrite (Hc _ _ _ Hw2 name), (Hc _ _ _ Hw1 name).
      by destruct (u !! name).
    + rewrite list_lookup_insert_ne in Hb by done.
      rewrite Ha in Hb. injection Hb as <-. done.
Qed.


(** The calls that return. On a valid layer index, every call of
    [writeLayer] that returns has called [writePrefs] exactly once, on the
    target layer, and returns the [Error] of that call. When every proposed
    pair equals the value of its nearest lower layer (so also for an empty
    [prefs]), the call returns, and its one write passes the empty set. A
    call that proposes a name no lower layer defines does not return and
    writes nothing ([writeLayer_returns_iff]). *)
Theorem writeLayer_writes_once fuel layer prefs ls l :
  1 ≤ layer < Z.of_nat (length ls) → ls !! Z.to_nat layer = Some l →
  Z.of_nat (length ls) ≤ SIZE_MAX → layer < Z.of_nat fuel →
  (∀ r ls' tr,
     writeLayer fuel layer prefs ls = Returns r ls' tr →
     ∃ u, writes tr = [(layer, u)] ∧ r = (writePrefs l u).2) ∧
  ((∀ name value, prefs !! name = Some value →
                  nearestLower ls (Z.to_nat layer) name value) →
   ∃ tr, writeLayer fuel layer prefs ls
         = Returns (writePrefs l ∅).2
             (<[Z.to_nat layer := (writePrefs l ∅).1]> ls) tr ∧
         writes tr = [(layer, ∅)]).
Proof.
  intros Hlayer Hl Hs Hf. split.
  - intros r ls' tr Hret.
    destruct (writeLayer_Returns_inv fuel layer prefs ls l r ls' tr)
      as (tr0 & Htr0 & -> & -> & _); [lia|done..|].
    exists (minimized ls (Z.to_nat layer) prefs). split; [|done].
    by apply (writes_scan_then_write layer).
  - intros Hall.
    destruct (writeLayer_returns fuel layer prefs ls l) as (tr & Htr & Hw);
      [lia|done..| |].
    + intros name [value Hp]. apply inherited_definedBelow.
      rewrite (proj2 (inherited_nearestLower _ _ _ _) (Hall _ _ Hp)). by eauto.
    + rewrite (minimized_all_inherited _ _ _ Hall) in Hw.
      eexists. split; [exact Hw|]. by apply (writes_scan_then_write layer).
Qed.

(** ** The claims on [allLayers], [readLayers] and [initialize] *)

(** C7. [allLayers] returns the documents [allPrefs] gives for the layers,
    one per layer and in the order of the stack, index 0 first; the only
    calls it makes are the [allPrefs] calls, none of them mutating, and it
    leaves the stack as it was. *)
Theorem allLayers_snapshots ls :
  ∃ docs tr,
    allLayers ls = Returns docs ls tr ∧
    docs = allPrefs <$> ls ∧
    length docs = length ls ∧
    (∀ i : nat, docs !! i = allPrefs <$> ls !! i) ∧
    tr = (λ k : nat, CallAllPrefs (Z.of_nat k)) <$> seq 0 (length ls) ∧
    List.filter mutating tr = [].
Proof.
  exists (allPrefs <$> ls), ((λ k : nat, CallAllPrefs (Z.of_nat k))
                              <$> seq 0 (length ls)).
  split; [apply allLayers_spec|]. split; [done|].
  split; [by rewrite length_fmap|]. split; [intros i; by rewrite list_lookup_fmap|].
  split; [done|]. generalize 0%nat.
  induction (length ls) as [|n IH]; intros k; [done|]. simpl. apply IH.
Qed.

(** C5. [readLayers] calls [readPrefs] on every layer in the order of the
    stack, logs every error it gets and returns [Success]. [initialize]
    returns an error exactly when [createLayers] does, and then it is that
    error; otherwise it calls [readPrefs] on every layer, then
    [validatePrefs] on every layer, in the order of the stack, logs every
    error of these calls and returns [Success]. *)
Theorem initialize_best_effort (createLayers : list L → list L * Error) ls :
  (∃ tr,
     readLayers ls = Returns Success ((λ l, (readPrefs l).1) <$> ls) tr ∧
     List.filter mutating tr
     = (λ k : nat, CallReadPrefs (Z.of_nat k)) <$> seq 0 (length ls) ∧
     logged tr = List.filter isError ((λ l, (readPrefs l).2) <$> ls)) ∧
  (∃ r ls' tr,
     initialize createLayers ls = Returns r ls' tr ∧
     isError r = isError (createLayers ls).2 ∧
     if isError (createLayers ls).2 then
       r = (createLayers ls).2 ∧ ls' = (createLayers ls).1 ∧
       tr = [CallCreateLayers]
     else
       let created := (createLayers ls).1 in
       let loaded := (λ l, (readPrefs l).1) <$> created in
       r = Success ∧
       ls' = (λ l, (validatePrefs l).1) <$> loaded ∧
       List.filter mutating tr
       = CallCreateLayers
         :: ((λ k : nat, CallReadPrefs (Z.of_nat k)) <$> seq 0 (length created))
         ++ ((λ k : nat, CallValidatePrefs (Z.of_nat k))
               <$> seq 0 (length created)) ∧
       logged tr
       = List.filter isError ((λ l, (readPrefs l).2) <$> created)
         ++ List.filter isError ((λ l, (validatePrefs l).2) <$> loaded)).
Proof.
  split.
  - eexists. split; [apply readLayers_spec|]. split.
    + by rewrite perLayer_mutating.
    + by rewrite perLayer_logged.
  - unfold initialize. unfold bind at 1. unfold call_createLayers.
    destruct (createLayers ls) as [created e0]. cbn [fst snd].
    destruct (isError e0) eqn:He0.
    + by exists e0, created, [CallCreateLayers].
    + unfold bind at 1. rewrite readLayers_spec. cbn [isError prefix].
      destruct (forEachLayer_callOn CallValidatePrefs validatePrefs Success
                  ((λ l, (readPrefs l).1) <$> created)) as [a Ha].
      unfold call_validatePrefs. unfold bind at 1. rewrite Ha.
      eexists _, _, _. split; [reflexivity|]. split; [done|].
      split; [done|]. split; [done|]. simpl. rewrite app_nil_r. split.
      * rewrite List.filter_app, !perLayer_mutating by done.
        by rewrite length_fmap.
      * by rewrite logged_app, !perLayer_logged.
Qed.

End Properties.

(** ** The layer kept in memory, and the scenarios of the spec *)

Lemma MemLayer_adds_or_updates : writePrefsAddsOrUpdates (L := MemLayer).
Proof.
  intros l l' values Hw name. simpl in Hw.
  destruct (isError (ioError l)) eqn:Hio.
  - injection Hw as _ Hs. rewrite Hs in Hio. discriminate.
  - injection Hw as <-. simpl. rewrite lookup_union.
    by destruct (values !! name), (content l !! name).
Qed.

Lemma themeStack_fits : Z.of_nat (length themeStack) ≤ SIZE_MAX.
Proof. by vm_compute. Qed.

Lemma projectStack_fits : Z.of_nat (length projectStack) ≤ SIZE_MAX.
Proof. by vm_compute. Qed.

(** Section 8: writing the theme the base layer has leaves the user layer
    empty, writing another one stores it. *)
Example writeLayer_light_theme :
  writeLayer 2 1 lightTheme themeStack
  = Returns Success themeStack [CallReadValue 0 "theme"; CallWritePrefs 1 ∅].
Proof. by vm_compute. Qed.

Example writeLayer_dark_theme :
  writeLayer 2 1 darkTheme themeStack
  = Returns Success darkStack
      [CallReadValue 0 "theme"; CallWritePrefs 1 darkTheme].
Proof. by vm_compute. Qed.

Example writeLayer_dark_theme_again :
  writeLayer 2 1 darkTheme darkStack
  = Returns Success darkStack
      [CallReadValue 0 "theme"; CallWritePrefs 1 darkTheme].
Proof. by vm_compute. Qed.

Example writeLayer_failing_storage :
  writeLayer 2 1 darkTheme failingStack
  = Returns (systemError 5) failingStack
      [CallReadValue 0 "theme"; CallWritePrefs 1 darkTheme].
Proof. by vm_compute. Qed.

(** C2. The proposed name "font" is defined by no layer below layer 1 of
    base{theme: "light"}, user{}: [writeLayer] reads layer 0, then
    [layers_[SIZE_MAX]], which is out of range; [writePrefs] is not called
    and the pair is not stored. *)
Theorem writeLayer_undefined_name_out_of_range :
  writeLayer 2 1 monoFont themeStack
  = OutOfRange SIZE_MAX themeStack [CallReadValue 0 "font"].
Proof. by vm_compute. Qed.

(** C3. The scan for layer 2 of base{theme: "light"}, user{}, project{},
    on a name no lower layer defines: after the layers 1 and 0 the counter
    wraps to [SIZE_MAX], where the scan indexes [layers_] out of range. *)
Theorem scanLower_wraps_below_zero :
  scanLower 3 "font" "mono" (wrap (2 - 1)) projectStack
  = OutOfRange SIZE_MAX projectStack
      [CallReadValue 1 "font"; CallReadValue 0 "font"].
Proof. by vm_compute. Qed.

(** C1. On base{theme: "light"}, user{}, [writeLayer] of layer 1 with
    {theme: "dark", font: "mono"}: the pair (theme, dark) is proposed, its
    name is defined below the layer and the nearest lower value, "light",
    differs from it, yet no set is passed to [writePrefs]: the scan for
    "font", which no lower layer defines, leaves the stack at [SIZE_MAX]
    and [writeLayer] does not return. *)
Theorem writeLayer_differing_pair_not_written :
  themeAndFont !! "theme" = Some "dark" ∧
  nearestLower themeStack (Z.to_nat 1) "theme" "light" ∧
  "light" ≠ "dark" ∧
  returned (writeLayer 2 1 themeAndFont themeStack) = false ∧
  writes (traceOf (writeLayer 2 1 themeAndFont themeStack)) = [].
Proof.
  split; [reflexivity|]. split; [apply inherited_nearestLower; reflexivity|].
  split; [discriminate|]. split; by vm_compute.
Qed.

(** C10. On base{theme: "light"}, user{}, project{}, the index 2 is valid,
    and [writeLayer] of layer 2 with {font: "mono"} calls [writePrefs] not
    once but never: after the layers 1 and 0 the scan reads [layers_] out
    of range at [SIZE_MAX] and the call does not return. *)
Theorem writeLayer_no_write_on_valid_index :
  1 ≤ 2 < Z.of_nat (length projectStack) ∧
  length (writes (traceOf (writeLayer 3 2 monoFont projectStack))) = 0%nat ∧
  reads (traceOf (writeLayer 3 2 monoFont projectStack)) = [1; 0] ∧
  returned (writeLayer 3 2 monoFont projectStack) = false.
Proof.
  split; [by vm_compute|]. split; [|split]; by vm_compute.
Qed.

Lemma writeLayer_inherited_pair_witness :
  (∃ tr,
     readsBelow (Value := string) 1 tr ∧
     recordUnique 2 1 ∅ ("theme", "dark") themeStack
     = Returns (if decide ("light" = "dark") then ∅
                else <["theme" := "dark"]> ∅) themeStack tr) ∧
  (∃ u, writes [CallReadValue 0 "theme"; CallWritePrefs 1 darkTheme] = [(1, u)] ∧
        (u !! "theme" = Some "dark" ↔ "light" ≠ "dark") ∧
        ("light" = "dark" → u !! "theme" = None)).
Proof.
  destruct (writeLayer_inherited_pair 2 1 darkTheme themeStack
              "theme" "dark" "light") as (Hpair & Hcall & _).
  - simpl. lia.
  - exact themeStack_fits.
  - simpl. lia.
  - reflexivity.
  - apply inherited_nearestLower. reflexivity.
  - split; [exact (Hpair ∅)|].
    exact (Hcall _ _ _ writeLayer_dark_theme).
Defined.

Lemma writeLayer_invalid_index_witness :
  writeLayer 2 0 darkTheme themeStack
  = Returns (systemError invalid_argument) themeStack [] ∧
  writeLayer 2 2 darkTheme themeStack
  = Returns (systemError invalid_argument) themeStack [].
Proof.
  split.
  - apply (writeLayer_invalid_index 2 0 darkTheme themeStack). left. reflexivity.
  - apply (writeLayer_invalid_index 2 2 darkTheme themeStack). right. simpl. lia.
Defined.

Lemma writeLayer_write_error_witness :
  ∃ tr,
    writeLayer 2 1 darkTheme failingStack
    = Returns (writePrefs (brokenLayer ∅ (systemError 5)) darkTheme).2
        (<[Z.to_nat 1 := (writePrefs (brokenLayer ∅ (systemError 5)) darkTheme).1]>
           failingStack) tr ∧
    List.filter mutating tr = [CallWritePrefs 1 darkTheme] ∧
    ∀ i : nat, i ≠ Z.to_nat 1 →
               <[Z.to_nat 1 := (writePrefs (brokenLayer ∅ (systemError 5)) darkTheme).1]>
                 failingStack !! i = failingStack !! i.
Proof.
  apply (writeLayer_write_error 2 1 darkTheme failingStack
           (brokenLayer ∅ (systemError 5)) darkTheme).
  - simpl. lia.
  - reflexivity.
  - exact themeStack_fits.
  - simpl. lia.
  - rewrite writeLayer_failing_storage. simpl. apply list_elem_of_singleton.
    reflexivity.
Defined.

Lemma writeLayer_idempotent_witness :
  writes [CallReadValue 0 "theme"; CallWritePrefs (Value := string) 1 darkTheme]
  = writes [CallReadValue 0 "theme"; CallWritePrefs 1 darkTheme] ∧
  length darkStack = length darkStack ∧
  ∀ (i : nat) l1 l2,
    darkStack !! i = Some l1 → darkStack !! i = Some l2 →
    (∀ name, readValue l2 name = readValue l1 name) ∧
    (i ≠ Z.to_nat 1 → l2 = l1).
Proof.
  apply (writeLayer_idempotent 2 1 darkTheme themeStack darkStack darkStack).
  - exact MemLayer_adds_or_updates.
  - simpl. lia.
  - exact themeStack_fits.
  - simpl. lia.
  - exact writeLayer_dark_theme.
  - exact writeLayer_dark_theme_again.
Defined.


Lemma writeLayer_writes_once_witness :
  (∃ u, writes [CallReadValue 0 "theme"; CallWritePrefs 1 darkTheme] = [(1, u)] ∧
        Success = (writePrefs (memLayer ∅) u).2) ∧
  (∃ tr, writeLayer 2 1 lightTheme themeStack
         = Returns (writePrefs (memLayer ∅) ∅).2
             (<[Z.to_nat 1 := (writePrefs (memLayer ∅) ∅).1]> themeStack) tr ∧
         writes tr = [(1, ∅)]).
Proof.
  split.
  - destruct (writeLayer_writes_once 2 1 darkTheme themeStack (memLayer ∅))
      as [Hcall _].
    + simpl. lia.
    + reflexivity.
    + exact themeStack_fits.
    + simpl. lia.
    + exact (Hcall _ _ _ writeLayer_dark_theme).
  - destruct (writeLayer_writes_once 2 1 lightTheme themeStack (memLayer ∅))
      as [_ Hempty].
    + simpl. lia.
    + reflexivity.
    + exact themeStack_fits.
    + simpl. lia.
    + apply Hempty. intros name value Hp. unfold lightTheme in Hp.
      apply lookup_singleton_Some in Hp as [<- <-].
      apply inherited_nearestLower. reflexivity.
Defined.

(** ** Further properties of [writeLayer] and of the loops *)

Section MoreProperties.
Context {Value : Type} `{EqDecision Value}.
Context {L : Type} `{PrefLayer Value L}.

Implicit Types (ls : list L) (tr : list (Event Value)).
Implicit Types (prefs : gmap string Value) (name : string).

Lemma reads_app tr1 tr2 : reads (tr1 ++ tr2) = reads tr1 ++ reads tr2.
Proof.
  induction tr1 as [|e tr1 IH]; [done|].
  destruct e; simpl; by rewrite ?IH.
Qed.

Lemma minimized_lookup_iff ls n prefs name value :
  minimized ls n prefs !! name = Some value
  ↔ prefs !! name = Some value ∧ ¬ nearestLower ls n name value.
Proof.
  unfold minimized. rewrite map_lookup_filter_Some. simpl.
  by rewrite inherited_nearestLower.
Qed.

(** X1. On a valid layer index [writeLayer] returns exactly when every
    proposed name is defined by some layer below the target. When it does
    not return, it has read [layers_] out of range at [SIZE_MAX], with the
    stack as it was and without any mutating call. *)
Theorem writeLayer_returns_iff fuel layer prefs ls :
  1 ≤ layer < Z.of_nat (length ls) →
  Z.of_nat (length ls) ≤ SIZE_MAX → layer < Z.of_nat fuel →
  (returned (writeLayer fuel layer prefs ls) = true
   ↔ ∀ name, is_Some (prefs !! name) → definedBelow ls (Z.to_nat layer) name) ∧
  (returned (writeLayer fuel layer prefs ls) = false →
   ∃ tr, writeLayer fuel layer prefs ls = OutOfRange SIZE_MAX ls tr ∧
         List.filter mutating tr = []).
Proof.
  intros Hlayer Hs Hf.
  destruct (lookup_lt_is_Some_2 ls (Z.to_nat layer)) as [l Hl]; [lia|].
  destruct (writeLayer_outcome fuel layer prefs ls l)
    as (tr & Htr & [[Hall ->]|[(k & Hk & Hno) ->]]); [lia|done..| |]; simpl.
  - split; [done|]. intros [=].
  - split.
    + split; [done|]. intros Hall. destruct Hno. by apply Hall.
    + intros _. exists tr. split; [done|]. by apply (readsBelow_mutating layer).
Qed.

(** X2. The set a returning [writeLayer] passes to [writePrefs] is made of
    proposed pairs only, and of exactly those that are not what the nearest
    lower layer provides: nothing the caller did not propose is written, and
    no pair the target would inherit. *)
Theorem writeLayer_written_set fuel layer prefs ls r ls' tr :
  1 ≤ layer < Z.of_nat (length ls) →
  Z.of_nat (length ls) ≤ SIZE_MAX → layer < Z.of_nat fuel →
  writeLayer fuel layer prefs ls = Returns r ls' tr →
  ∃ u, writes tr = [(layer, u)] ∧ u ⊆ prefs ∧
       ∀ name value,
         u !! name = Some value
         ↔ prefs !! name = Some value ∧
           ¬ nearestLower ls (Z.to_nat layer) name value.
Proof.
  intros Hlayer Hs Hf Hret.
  destruct (lookup_lt_is_Some_2 ls (Z.to_nat layer)) as [l Hl]; [lia|].
  destruct (writeLayer_Returns_inv fuel layer prefs ls l r ls' tr)
    as (tr0 & Htr0 & -> & _ & _); [lia|done..|].
  exists (minimized ls (Z.to_nat layer) prefs). split; [|split].
  - by apply (writes_scan_then_write layer).
  - apply map_filter_subseteq.
  - intros name value. apply minimized_lookup_iff.
Qed.

(** X3. After a returning [writeLayer], every proposed pair is either in
    the set passed to [writePrefs] or is what the nearest lower layer
    provides: resolving a proposed name through the written set and then
    through the layers below gives the proposed value. *)
Theorem writeLayer_cascade_resolves fuel layer prefs ls r ls' tr name value :
  1 ≤ layer < Z.of_nat (length ls) →
  Z.of_nat (length ls) ≤ SIZE_MAX → layer < Z.of_nat fuel →
  writeLayer fuel layer prefs ls = Returns r ls' tr →
  prefs !! name = Some value →
  ∃ u, writes tr = [(layer, u)] ∧
       (u !! name = Some value ∨
        (u !! name = None ∧ nearestLower ls (Z.to_nat layer) name value)).
Proof.
  intros Hlayer Hs Hf Hret Hp.
  destruct (lookup_lt_is_Some_2 ls (Z.to_nat layer)) as [l Hl]; [lia|].
  destruct (writeLayer_Returns_inv fuel layer prefs ls l r ls' tr)
    as (tr0 & Htr0 & -> & _ & _); [lia|done..|].
  exists (minimized ls (Z.to_nat layer) prefs).
  split; [by apply (writes_scan_then_write layer)|].
  destruct (decide (inherited ls (Z.to_nat layer) name = Some value)) as [Hv|Hv].
  - right. split; [|by apply inherited_nearestLower].
    by apply (minimized_lookup ls _ prefs name value value).
  - left. apply map_lookup_filter_Some. by split.
Qed.

(** X5. Whatever its outcome, [writeLayer] on a valid index calls
    [readValue] on layers below the target only: it never reads the target
    layer or a layer above it. *)
Theorem writeLayer_reads_below fuel layer prefs ls :
  1 ≤ layer < Z.of_nat (length ls) →
  Z.of_nat (length ls) ≤ SIZE_MAX → layer < Z.of_nat fuel →
  Forall (λ i, 0 ≤ i < layer) (reads (traceOf (writeLayer fuel layer prefs ls))).
Proof.
  intros Hlayer Hs Hf.
  destruct (lookup_lt_is_Some_2 ls (Z.to_nat layer)) as [l Hl]; [lia|].
  destruct (writeLayer_outcome fuel layer prefs ls l)
    as (tr & Htr & [[_ ->]|[_ ->]]); [lia|done..| |]; simpl.
  - rewrite reads_app. simpl. rewrite app_nil_r. by apply readsBelow_reads.
  - by apply readsBelow_reads.
Qed.

(** X6. With no proposed pair, [writeLayer] on a valid index makes no
    [readValue] call at all: its whole trace is the one [writePrefs] call
    with the empty set, whose [Error] it returns. *)
Theorem writeLayer_empty_prefs fuel layer ls l :
  1 ≤ layer → ls !! Z.to_nat layer = Some l →
  writeLayer fuel layer ∅ ls
  = Returns (writePrefs l ∅).2 (<[Z.to_nat layer := (writePrefs l ∅).1]> ls)
      [CallWritePrefs layer ∅].
Proof.
  intros Hlayer Hl. pose proof (lookup_lt_Some _ _ _ Hl) as Hlt.
  unfold writeLayer. unfold bind at 1. unfold size.
  rewrite Z.geb_leb.
  replace (Z.of_nat (length ls) <=? layer) with false
    by (symmetry; apply Z.leb_gt; lia).
  replace (layer <? 1) with false by (symmetry; apply Z.ltb_ge; lia).
  change (false || false) with false. cbv iota. rewrite prefix_nil.
  rewrite map_to_list_empty. cbn [forMembers]. unfold bind at 1, ret at 1.
  rewrite prefix_nil. unfold bind, call_writePrefs.
  rewrite <- (Z2Nat.id layer) at 1 2 by lia.
  rewrite (callOn_at _ _ _ _ _ Hl). rewrite Z2Nat.id by lia. simpl.
  destruct (writePrefs l ∅) as [l' e]. by destruct e.
Qed.

(** X4. The scan for a name whose nearest defining layer below [n] is
    layer [j] calls [readValue] on the layers [n - 1], [n - 2], ..., [j],
    in this order and once each, and stops there with [found] set and
    [differs] telling whether the value of layer [j] is not the proposed
    one; [n - j] tests of the loop condition are enough. *)
Theorem scanLower_stops_at_nearest fuel name value ls (n j : nat) lj v :
  (j < n ≤ length ls)%nat → Z.of_nat (length ls) ≤ SIZE_MAX →
  (n - j ≤ fuel)%nat →
  ls !! j = Some lj → readValue lj name = Some v →
  (∀ (k : nat) lk, (j < k < n)%nat → ls !! k = Some lk →
                   readValue lk name = None) →
  scanLower fuel name value (wrap (Z.of_nat n - 1)) ls
  = Returns (true, negb (bool_decide (v = value))) ls
      ((λ k : nat, CallReadValue (Z.of_nat k) name) <$> reverse (seq j (n - j))).
Proof.
  intros Hn Hs Hf Hlj Hv. revert fuel Hf Hn.
  induction n as [|m IH]; intros fuel Hf Hn Hbetween; [lia|].
  destruct fuel as [|fuel]; [lia|].
  replace (Z.of_nat (S m) - 1) with (Z.of_nat m) by lia.
  rewrite wrap_small by lia. cbn [scanLower].
  replace (Z.of_nat m >=? 0) with true by (symmetry; apply Z.geb_le; lia).
  destruct (decide (m = j)) as [->|Hne].
  - rewrite (bind_Returns _ _ _ _ _ _ (call_readValue_at ls j lj name Hlj)).
    rewrite Hv. replace (S j - j)%nat with 1%nat by lia. done.
  - destruct (lookup_lt_is_Some_2 ls m) as [lm Hlm]; [lia|].
    rewrite (bind_Returns _ _ _ _ _ _ (call_readValue_at ls m lm name Hlm)).
    rewrite (Hbetween m lm) by (done || lia).
    rewrite (IH fuel); [|lia|lia|intros k lk Hk; apply Hbetween; lia].
    replace (S m - j)%nat with (S (m - j)) by lia.
    rewrite seq_S, reverse_snoc, fmap_cons.
    replace (j + (m - j))%nat with m by lia. done.
Qed.

(** X10. The scan for a name that no layer below [n] defines calls
    [readValue] on every one of these layers, from [n - 1] down to 0, once
    each; it then goes on to the index [SIZE_MAX], where it reads [layers_]
    out of range, having changed nothing. *)
Theorem scanLower_undefined_trace fuel name value ls (n : nat) :
  (n ≤ length ls)%nat → Z.of_nat (length ls) ≤ SIZE_MAX → (n < fuel)%nat →
  (∀ (k : nat) lk, (k < n)%nat → ls !! k = Some lk →
                   readValue lk name = None) →
  scanLower fuel name value (wrap (Z.of_nat n - 1)) ls
  = OutOfRange SIZE_MAX ls
      ((λ k : nat, CallReadValue (Z.of_nat k) name) <$> reverse (seq 0 n)).
Proof.
  intros Hn Hs. revert fuel.
  induction n as [|m IH]; intros fuel Hf Hnone.
  - destruct fuel as [|fuel]; [lia|].
    change (wrap (Z.of_nat 0 - 1)) with SIZE_MAX. cbn [scanLower].
    change (SIZE_MAX >=? 0) with true. cbv iota.
    by rewrite (bind_OutOfRange _ _ _ _ _ _ (call_readValue_SIZE_MAX ls name Hs)).
  - destruct fuel as [|fuel]; [lia|].
    replace (Z.of_nat (S m) - 1) with (Z.of_nat m) by lia.
    rewrite wrap_small by lia. cbn [scanLower].
    replace (Z.of_nat m >=? 0) with true by (symmetry; apply Z.geb_le; lia).
    destruct (lookup_lt_is_Some_2 ls m) as [lm Hlm]; [lia|].
    rewrite (bind_Returns _ _ _ _ _ _ (call_readValue_at ls m lm name Hlm)).
    rewrite (Hnone m lm) by (done || lia).
    rewrite (IH ltac:(lia) fuel); [|lia|intros k lk Hk; apply Hnone; lia].
    by rewrite seq_S, reverse_snoc, fmap_cons.
Qed.

(** *** The member loop in any order *)

Lemma uniqueOf_minimized_perm ls n prefs members u :
  members ≡ₚ map_to_list prefs →
  uniqueOf ls n members ∅ = Some u → u = minimized ls n prefs.
Proof.
  intros Hperm Hu. apply map_eq. intros name. unfold minimized.
  assert (NoDup members.*1) as Hnd.
  { rewrite Hperm. apply NoDup_fst_map_to_list. }
  destruct (prefs !! name) as [value|] eqn:Hp.
  - assert ((name, value) ∈ members) as Hin.
    { rewrite Hperm. by apply elem_of_map_to_list. }
    rewrite (uniqueOf_member _ _ _ _ _ name value Hnd Hin Hu).
    destruct (decide (inherited ls n name = Some value)) as [Heq|Hne].
    + rewrite lookup_empty. symmetry. apply map_lookup_filter_None.
      right. intros x Hx. simpl. congruence.
    + symmetry. by apply map_lookup_filter_Some.
  - rewrite (uniqueOf_other ls n members ∅ u name); [|..|exact Hu].
    + rewrite lookup_empty. symmetry. apply map_lookup_filter_None. by left.
    + intros Hin. apply list_elem_of_fmap in Hin as ([k w] & -> & Hin).
      rewrite Hperm in Hin. apply elem_of_map_to_list in Hin.
      simpl in Hp. congruence.
Qed.

(** X9. The outer loop of [writeLayer] gives the same result in whatever
    order it visits the members of [prefs]: when every proposed name is
    defined below the layer it collects the proposed pairs that differ from
    what the nearest lower layer provides, and when one is not it ends in
    the out-of-range read at [SIZE_MAX]; the stack is not changed in either
    case. *)
Theorem forMembers_any_order fuel layer prefs members ls :
  0 ≤ layer ≤ Z.of_nat (length ls) →
  Z.of_nat (length ls) ≤ SIZE_MAX → layer < Z.of_nat fuel →
  members ≡ₚ map_to_list prefs →
  ((∀ name, is_Some (prefs !! name) → definedBelow ls (Z.to_nat layer) name) →
   ∃ tr, forMembers (recordUnique fuel layer) members ∅ ls
         = Returns (minimized ls (Z.to_nat layer) prefs) ls tr) ∧
  ((∃ name, is_Some (prefs !! name) ∧ ¬ definedBelow ls (Z.to_nat layer) name) →
   ∃ tr, forMembers (recordUnique fuel layer) members ∅ ls
         = OutOfRange SIZE_MAX ls tr).
Proof.
  intros Hlayer Hs Hf Hperm.
  destruct (forMembers_spec fuel (Z.to_nat layer) members ∅ ls)
    as (tr & _ & Hloop); [lia|done|lia|].
  rewrite Z2Nat.id in Hloop by lia. rewrite Hloop.
  assert (is_Some (uniqueOf ls (Z.to_nat layer) members ∅)
          ↔ ∀ name, is_Some (prefs !! name) →
                    definedBelow ls (Z.to_nat layer) name) as Hdef.
  { rewrite uniqueOf_is_Some, Forall_forall. split.
    - intros Hall name [value Hp]. apply inherited_definedBelow.
      apply (Hall (name, value)). rewrite Hperm. by apply elem_of_map_to_list.
    - intros Hall [name value] Hin. apply inherited_definedBelow, Hall.
      rewrite Hperm in Hin. apply elem_of_map_to_list in Hin. by eauto. }
  destruct (uniqueOf ls (Z.to_nat layer) members ∅) as [u|] eqn:Hu.
  - rewrite (uniqueOf_minimized_perm _ _ _ _ _ Hperm Hu). split.
    + intros _. by exists tr.
    + intros (name & Hp & Hno). destruct Hno. apply Hdef; by eauto.
  - split.
    + intros Hall. apply Hdef in Hall. by destruct Hall.
    + intros _. by exists tr.
Qed.

(** *** Composing the member functions *)

Lemma initialize_created (createLayers : list L → list L * Error) ls :
  isError (createLayers ls).2 = false →
  ∃ tr, initialize createLayers ls
        = Returns Success
            ((λ l, (validatePrefs l).1)
               <$> ((λ l, (readPrefs l).1) <$> (createLayers ls).1)) tr.
Proof.
  intros He0. unfold initialize. unfold bind at 1. unfold call_createLayers.
  rewrite He0. unfold bind at 1. rewrite readLayers_spec. cbn [isError prefix].
  destruct (forEachLayer_callOn (Value := Value) CallValidatePrefs
              validatePrefs Success
              ((λ l, (readPrefs l).1) <$> (createLayers ls).1)) as [a Ha].
  unfold call_validatePrefs. unfold bind at 1. rewrite Ha. by eexists.
Qed.

(** X7. When [createLayers] succeeds, a call of [allLayers] right after
    [initialize] returns one document per created layer, in the order of
    the stack, whatever errors the layers' [readPrefs] and [validatePrefs]
    gave: the document of a layer is the [allPrefs] of that layer after its
    [readPrefs] and then its [validatePrefs] call. *)
Theorem initialize_then_allLayers (createLayers : list L → list L * Error) ls :
  isError (createLayers ls).2 = false →
  ∃ docs final tr,
    bind (initialize createLayers) (λ _, allLayers) ls = Returns docs final tr ∧
    length docs = length (createLayers ls).1 ∧
    ∀ (i : nat) l,
      (createLayers ls).1 !! i = Some l →
      docs !! i = Some (allPrefs (validatePrefs (readPrefs l).1).1).
Proof.
  intros He0. destruct (initialize_created createLayers ls He0) as [tr Hinit].
  unfold bind. rewrite Hinit, allLayers_spec. simpl.
  eexists _, _, _. split; [done|]. split.
  - by rewrite !length_fmap.
  - intros i l Hl. by rewrite !list_lookup_fmap, Hl.
Qed.

(** X8. A returning [writeLayer] changes the document [allLayers] gives
    for no layer but the target: called before and after the write,
    [allLayers] returns as many documents, equal at every index other than
    the target's. *)
Theorem writeLayer_keeps_other_snapshots fuel layer prefs ls r ls' tr :
  1 ≤ layer < Z.of_nat (length ls) →
  Z.of_nat (length ls) ≤ SIZE_MAX → layer < Z.of_nat fuel →
  writeLayer fuel layer prefs ls = Returns r ls' tr →
  ∃ docs docs' t t',
    allLayers ls = Returns docs ls t ∧
    allLayers ls' = Returns docs' ls' t' ∧
    length docs' = length docs ∧
    ∀ i : nat, i ≠ Z.to_nat layer → docs' !! i = docs !! i.
Proof.
  intros Hlayer Hs Hf Hret.
  destruct (lookup_lt_is_Some_2 ls (Z.to_nat layer)) as [l Hl]; [lia|].
  destruct (writeLayer_Returns_inv fuel layer prefs ls l r ls' tr)
    as (tr0 & _ & _ & _ & ->); [lia|done..|].
  eexists _, _, _, _. split; [apply allLayers_spec|].
  split; [apply allLayers_spec|]. split.
  - by rewrite !length_fmap, length_insert.
  - intros i Hi. by rewrite !list_lookup_fmap, list_lookup_insert_ne.
Qed.

End MoreProperties.

Lemma writeLayer_returns_iff_witness :
  (returned (writeLayer 2 1 monoFont themeStack) = true
   ↔ ∀ name, is_Some (monoFont !! name) → definedBelow themeStack (Z.to_nat 1) name) ∧
  (returned (writeLayer 2 1 monoFont themeStack) = false →
   ∃ tr, writeLayer 2 1 monoFont themeStack = OutOfRange SIZE_MAX themeStack tr ∧
         List.filter mutating tr = []).
Proof.
  apply (writeLayer_returns_iff 2 1 monoFont themeStack).
  - simpl. lia.
  - exact themeStack_fits.
  - simpl. lia.
Defined.

Lemma writeLayer_written_set_witness :
  ∃ u, writes [CallReadValue 0 "theme"; CallWritePrefs 1 darkTheme] = [(1, u)] ∧
       u ⊆ darkTheme ∧
       ∀ name value,
         u !! name = Some value
         ↔ darkTheme !! name = Some value ∧
           ¬ nearestLower themeStack (Z.to_nat 1) name value.
Proof.
  apply (writeLayer_written_set 2 1 darkTheme themeStack Success darkStack).
  - simpl. lia.
  - exact themeStack_fits.
  - simpl. lia.
  - exact writeLayer_dark_theme.
Defined.

Lemma writeLayer_cascade_resolves_witness :
  ∃ u, writes [CallReadValue 0 "theme"; CallWritePrefs 1 ∅] = [(1, u)] ∧
       (u !! "theme" = Some "light" ∨
        (u !! "theme" = None ∧
         nearestLower themeStack (Z.to_nat 1) "theme" "light")).
Proof.
  apply (writeLayer_cascade_resolves 2 1 lightTheme themeStack Success themeStack).
  - simpl. lia.
  - exact themeStack_fits.
  - simpl. lia.
  - exact writeLayer_light_theme.
  - reflexivity.
Defined.

Lemma scanLower_stops_at_nearest_witness :
  scanLower 2 "theme" "dark" (wrap (Z.of_nat 2 - 1)) projectStack
  = Returns (true, negb (bool_decide ("light" = "dark"))) projectStack
      ((λ k : nat, CallReadValue (Z.of_nat k) "theme") <$> reverse (seq 0 (2 - 0))).
Proof.
  apply (scanLower_stops_at_nearest 2 "theme" "dark" projectStack 2 0
           (memLayer lightTheme) "light").
  - simpl. lia.
  - exact projectStack_fits.
  - simpl. lia.
  - reflexivity.
  - reflexivity.
  - intros k lk Hk Hlk. assert (k = 1%nat) as -> by lia.
    injection Hlk as <-. reflexivity.
Defined.

Lemma writeLayer_reads_below_witness :
  Forall (λ i, 0 ≤ i < 1) (reads (traceOf (writeLayer 2 1 monoFont themeStack))).
Proof.
  apply (writeLayer_reads_below 2 1 monoFont themeStack).
  - simpl. lia.
  - exact themeStack_fits.
  - simpl. lia.
Defined.

Lemma writeLayer_empty_prefs_witness :
  writeLayer 0 1 ∅ themeStack
  = Returns (writePrefs (memLayer ∅) ∅).2
      (<[Z.to_nat 1 := (writePrefs (memLayer ∅) ∅).1]> themeStack)
      [CallWritePrefs 1 ∅].
Proof.
  apply (writeLayer_empty_prefs 0 1 themeStack (memLayer ∅)).
  - lia.
  - reflexivity.
Defined.

Lemma initialize_then_allLayers_witness :
  ∃ docs final tr,
    bind (initialize (λ _, (failingStack, Success))) (λ _, allLayers) []
    = Returns docs final tr ∧
    length docs = length failingStack ∧
    ∀ (i : nat) l,
      failingStack !! i = Some l →
      docs !! i = Some (allPrefs (validatePrefs (readPrefs l).1).1).
Proof.
  apply (initialize_then_allLayers (λ _, (failingStack, Success)) []).
  reflexivity.
Defined.

Lemma writeLayer_keeps_other_snapshots_witness :
  ∃ docs docs' t t',
    allLayers themeStack = Returns docs themeStack t ∧
    allLayers darkStack = Returns docs' darkStack t' ∧
    length docs' = length docs ∧
    ∀ i : nat, i ≠ Z.to_nat 1 → docs' !! i = docs !! i.
Proof.
  apply (writeLayer_keeps_other_snapshots 2 1 darkTheme themeStack Success darkStack
           [CallReadValue 0 "theme"; CallWritePrefs 1 darkTheme]).
  - simpl. lia.
  - exact themeStack_fits.
  - simpl. lia.
  - exact writeLayer_dark_theme.
Defined.

Lemma forMembers_any_order_witness :
  reverse (map_to_list themeAndFont) ≠ map_to_list themeAndFont ∧
  length (map_to_list themeAndFont) = 2%nat ∧
  ∃ tr, forMembers (recordUnique 2 1) (reverse (map_to_list themeAndFont)) ∅
          fontStack
        = Returns (minimized fontStack (Z.to_nat 1) themeAndFont) fontStack tr.
Proof.
  split; [intros Heq; vm_compute in Heq; discriminate Heq|].
  split; [reflexivity|].
  destruct (forMembers_any_order 2 1 themeAndFont
              (reverse (map_to_list themeAndFont)) fontStack) as [Hdefined _].
  - simpl. lia.
  - by vm_compute.
  - simpl. lia.
  - apply reverse_Permutation.
  - apply Hdefined. intros name [value Hp]. unfold themeAndFont in Hp.
    apply lookup_insert_Some in Hp as [[<- <-]|[_ Hp]];
      [|apply lookup_singleton_Some in Hp as [<- <-]];
      apply inherited_definedBelow; eexists; reflexivity.
Defined.

Lemma scanLower_undefined_trace_witness :
  scanLower 3 "font" "mono" (wrap (Z.of_nat 2 - 1)) projectStack
  = OutOfRange SIZE_MAX projectStack
      ((λ k : nat, CallReadValue (Z.of_nat k) "font") <$> reverse (seq 0 2)).
Proof.
  apply (scanLower_undefined_trace 3 "font" "mono" projectStack 2).
  - simpl. lia.
  - exact projectStack_fits.
  - lia.
  - intros k lk Hk Hlk.
    destruct k as [|[|k]]; [injection Hlk as <-; reflexivity..|lia].
Defined.

End Prefs.
